(** * pyPRISM kernels: the Percus-Yevick closure and the WCA potential

    A shallow embedding of [typyPRISM/closure/PercusYevick.py] and
    [pyPRISM/potential/WeeksChandlerAndersen.py].

    - numpy [float64] scalars are Rocq's primitive IEEE-754 binary64 floats;
    - the arrays are the real-valued grids of the solver: a one-dimensional
      [float64] [ndarray] is a [list float], a boolean mask a [list bool];
    - Python objects that have an identity (the arrays bound to [r],
      [gamma], [self.potential] and [self.value]) live in an object store and
      are named by their address, so that aliasing and in-place updates are
      visible;
    - a method is a computation in a state-and-exception monad over the
      store and the closure object.

    [exp] and [pow] come from the C library in the Python program; here they
    are section variables, so every statement holds for any such functions. *)

From Stdlib Require Import Floats ZArith Lia.
From stdpp Require Import base option list strings.

Set Warnings "-inexact-float".
Set Default Proof Using "Type".

Open Scope float_scope.

(** ** Arrays and their elementwise operations *)

Abbreviation array := (list float).
Abbreviation mask := (list bool).

(** Exceptions the two modules can raise, directly or through numpy. *)
Inductive exn : Type :=
  | AssertionError (msg : string)
  | TypeError
  | IndexError
  | ValueError.

Inductive outcome (A : Type) : Type :=
  | Return (a : A)
  | Raise (e : exn).
Arguments Return {A} a.
Arguments Raise {A} e.

(** [a[m]] with a boolean index: the elements of [a] where [m] is true. *)
Fixpoint select (a : array) (m : mask) : array :=
  match a, m with
  | x :: a', b :: m' => if b then x :: select a' m' else select a' m'
  | _, _ => []
  end.

(** [a[m] = v] with a boolean index: the elements of [v] are written, in
    order, to the positions of [a] where [m] is true. *)
Fixpoint scatter (a : array) (m : mask) (v : array) : array :=
  match a, m with
  | x :: a', true :: m' =>
      match v with
      | y :: v' => y :: scatter a' m' v'
      | [] => x :: scatter a' m' []
      end
  | x :: a', false :: m' => x :: scatter a' m' v
  | _, _ => a
  end.

(** The number of positions a boolean index selects. *)
Fixpoint count_true (m : mask) : nat :=
  match m with
  | [] => 0
  | b :: m' => if b then S (count_true m') else count_true m'
  end.

(** [a[m]]: numpy refuses a boolean index whose length is not the array's. *)
Definition np_getitem (a : array) (m : mask) : outcome array :=
  if decide (length m = length a) then Return (select a m) else Raise IndexError.

(** [a[m] = v]: the index must fit the array; the value must have one
    element per selected position, or a single element that is broadcast. *)
Definition np_setitem (a : array) (m : mask) (v : array) : outcome array :=
  if decide (length m = length a) then
    if decide (length v = count_true m) then Return (scatter a m v)
    else match v with
         | [y] => Return (scatter a m (replicate (count_true m) y))
         | _ => Raise ValueError
         end
  else Raise IndexError.

(** [a * b] on arrays: elementwise on equal shapes, a one-element operand is
    broadcast, anything else does not broadcast. *)
Definition np_mul (a b : array) : outcome array :=
  if decide (length a = length b) then Return (zip_with PrimFloat.mul a b)
  else match a, b with
       | [x], _ => Return (map (PrimFloat.mul x) b)
       | _, [y] => Return (map (λ x, x * y) a)
       | _, _ => Raise ValueError
       end.

(** [r > s] for an array [r] and a float [s]. *)
Definition np_gt (r : array) (s : float) : mask := map (λ x, s <? x) r.

(** ** The object store and the closure object *)

Abbreviation loc := nat.

(** The arrays that have an identity, by address. A new array gets the next
    free address. *)
Abbreviation heap := (list array).

(** The fields of a [PercusYevick] instance. [None] is Python's [None]. *)
Record PercusYevick : Type := mkPercusYevick {
  potential : option loc;
  value : option loc;
  sigma : option float;
  apply_hard_core : bool
}.

(** [PercusYevick.__init__] *)
Definition PercusYevick_init (hard_core : bool) : PercusYevick :=
  {| potential := None; value := None; sigma := None;
     apply_hard_core := hard_core |}.

(** [PercusYevick.__repr__] *)
Definition PercusYevick_repr (self : PercusYevick) : string :=
  "<AtomicClosure: PercusYevick>".

(** [class PY(PercusYevick)]: an alias, with nothing of its own. *)
Definition PY_init : bool → PercusYevick := PercusYevick_init.

Definition with_value (self : PercusYevick) (v : option loc) : PercusYevick :=
  {| potential := potential self; value := v; sigma := sigma self;
     apply_hard_core := apply_hard_core self |}.

(** [self.potential = p], as the owner of the closure binds it. *)
Definition with_potential (self : PercusYevick) (p : loc) : PercusYevick :=
  {| potential := Some p; value := value self; sigma := sigma self;
     apply_hard_core := apply_hard_core self |}.

(** [self.sigma = s] *)
Definition with_sigma (self : PercusYevick) (s : float) : PercusYevick :=
  {| potential := potential self; value := value self; sigma := Some s;
     apply_hard_core := apply_hard_core self |}.

Record world : Type := mkWorld {
  store : heap;
  this : PercusYevick
}.

(** ** The monad of method bodies

    A computation takes a world and returns or raises, with the world it
    leaves behind. [None] stands for a run that follows an address that names
    no object, which no Python program can do. *)
Definition M (A : Type) : Type := world → option (outcome A * world).

Definition ret {A} (a : A) : M A := λ w, Some (Return a, w).

Definition raise {A} (e : exn) : M A := λ w, Some (Raise e, w).

Definition bind {A B} (m : M A) (k : A → M B) : M B :=
  λ w, match m w with
       | Some (Return a, w') => k a w'
       | Some (Raise e, w') => Some (Raise e, w')
       | None => None
       end.

Notation "'let*' x := m 'in' k" := (bind m (λ x, k))
  (at level 10, x name, m at level 100, k at level 200,
   format "'[v' 'let*'  x  :=  m  'in' '/' k ']'").
Notation "m >> k" := (bind m (λ _, k))
  (at level 61, left associativity).

(** Lift a numpy operation that may raise. *)
Definition lift {A} (o : outcome A) : M A :=
  match o with
  | Return a => ret a
  | Raise e => raise e
  end.

(** Read the array at an address. *)
Definition load (l : loc) : M array :=
  λ w, match store w !! l with
       | Some a => Some (Return a, w)
       | None => None
       end.

(** Give a freshly computed array an address. *)
Definition alloc (a : array) : M loc :=
  λ w, Some (Return (length (store w)),
             {| store := store w ++ [a]; this := this w |}).

(** Overwrite the array at an address, in place. *)
Definition write (l : loc) (a : array) : M unit :=
  λ w, Some (Return tt, {| store := <[l := a]> (store w); this := this w |}).

Definition get_self : M PercusYevick := λ w, Some (Return (this w), w).

(** [self.value = v] *)
Definition set_value (v : loc) : M unit :=
  λ w, Some (Return tt,
             {| store := store w; this := with_value (this w) (Some v) |}).

(** [len(x)] of the array at [l]. *)
Definition np_len (l : loc) : M nat :=
  let* a := load l in ret (length a).

Section Closure.

(** [numpy.exp] on one float. *)
Variable exp : float → float.

(** The Percus-Yevick formula at one grid point:
    [(exp(-u) - 1.0) * (1.0 + gamma)]. *)
Definition py_point (u g : float) : float := (exp (- u) - 1) * (1 + g).

(** The hard-core value at one grid point: [-1 - gamma]. *)
Definition core_point (g : float) : float := -1 - g.

(** [(np.exp(-u) - 1.0) * (1.0 + g)] on arrays. *)
Definition py_arrays (u g : array) : outcome array :=
  np_mul (map (λ x, x - 1) (map exp (map PrimFloat.opp u)))
         (map (λ x, 1 + x) g).

(** [r > self.sigma]; comparing a float array with [None] is a type error. *)
Definition gt_sigma (r : array) (s : option float) : M mask :=
  match s with
  | Some s => ret (np_gt r s)
  | None => raise TypeError
  end.

(** [self.value[m] = v] *)
Definition set_value_items (m : mask) (v : array) : M unit :=
  let* self := get_self in
  match value self with
  | Some l =>
      let* old := load l in
      let* new := lift (np_setitem old m v) in
      write l new
  | None => raise TypeError
  end.

(** [PercusYevick.calculate(self, r, gamma)] *)
Definition calculate (r gamma : loc) : M (option loc) :=
  let* self := get_self in
  match potential self with
  | None => raise (AssertionError "Potential for this closure is not set!")
  | Some p =>
      let* n := np_len gamma in
      let* k := np_len p in
      if negb (n =? k)%nat then raise (AssertionError "Domain mismatch!")
      else
        (if apply_hard_core self then
           let* g := load gamma in
           let* v := alloc (map core_point g) in
           set_value v >>
           let* rs := load r in
           let* m := gt_sigma rs (sigma self) in
           let* u := load p in
           let* um := lift (np_getitem u m) in
           let* g := load gamma in
           let* gm := lift (np_getitem g m) in
           let* c := lift (py_arrays um gm) in
           set_value_items m c
         else
           let* u := load p in
           let* g := load gamma in
           let* c := lift (py_arrays u g) in
           let* v := alloc c in
           set_value v) >>
        let* self := get_self in
        ret (value self)
  end.

End Closure.


(** ** The Weeks-Chandler-Andersen potential *)

(** What [WeeksChandlerAndersen] uses of its base class
    [pyPRISM.potential.LennardJones], whose source is not at hand: the
    constructor [__init__(epsilon, sigma, rcut, shift)] and the method
    [calculate(r)], which the subclass inherits unchanged. *)
Class LennardJonesClass : Type := {
  LennardJones : Type;
  LennardJones_init : float → float → option float → bool → LennardJones;
  LennardJones_calculate : LennardJones → array → array
}.

Section Potential.

(** Python's [**] on floats. *)
Variable pow : float → float → float.

Section Specialization.

Context {base : LennardJonesClass}.

(** [WeeksChandlerAndersen.__init__(self, epsilon, sigma)] *)
Definition WeeksChandlerAndersen_init (epsilon sigma : float) : LennardJones :=
  let rcut := sigma * pow 2 (1 / 6) in
  LennardJones_init epsilon sigma (Some rcut) true.

(** [WeeksChandlerAndersen.__repr__] *)
Definition WeeksChandlerAndersen_repr (self : LennardJones) : string :=
  "<Potential: WeeksChandlerAndersen>".

(** The class body defines no [calculate]: the method is the base class's. *)
Definition WeeksChandlerAndersen_calculate : LennardJones → array → array :=
  LennardJones_calculate.

End Specialization.

(** Modelled from the spec: the base class [LennardJones] (its constructor
    and its [calculate]), which is not among the sources. The instance holds
    the four parameters; [calculate] computes the two-term inverse-power
    expression over the grid, then, with a cutoff, shifts the values at
    [r < rcut] by [+epsilon] when [shift] is set and forces the values at
    [r >= rcut] to [0.0]. *)
Record LJ : Type := mkLJ {
  LJ_epsilon : float;
  LJ_sigma : float;
  LJ_rcut : option float;
  LJ_shift : bool
}.

(** Modelled from the spec: the two-term inverse-power expression of the base
    form at one grid point. *)
Definition LJ_raw (epsilon sigma r : float) : float :=
  4 * epsilon * (pow (sigma / r) 12 - pow (sigma / r) 6).

(** Modelled from the spec: the shift policy of the base form. *)
Definition LJ_shifted (epsilon rcut : float) (r : array) (u : array) : array :=
  zip_with (λ x v, if x <? rcut then v + epsilon else v) r u.

(** Modelled from the spec: the cutoff policy of the base form. *)
Definition LJ_cut (rcut : float) (r : array) (u : array) : array :=
  zip_with (λ x v, if rcut <=? x then 0 else v) r u.

(** Modelled from the spec: [LennardJones.calculate(r)], absent from the
    sources. *)
Definition LJ_calculate (p : LJ) (r : array) : array :=
  let u := map (LJ_raw (LJ_epsilon p) (LJ_sigma p)) r in
  match LJ_rcut p with
  | Some rcut =>
      let u := if LJ_shift p then LJ_shifted (LJ_epsilon p) rcut r u else u in
      LJ_cut rcut r u
  | None => u
  end.

(** Modelled from the spec: the base class as the record of its constructor
    and its method. *)
Definition LJ_model : LennardJonesClass :=
  {| LennardJones := LJ;
     LennardJones_init := mkLJ;
     LennardJones_calculate := LJ_calculate |}.

(** The cutoff of the specialization, [sigma * 2**(1.0/6.0)]. *)
Definition WCA_rcut (sigma : float) : float := sigma * pow 2 (1 / 6).

End Potential.

(** ** Concrete instances, to run the model *)

(** A polynomial stand-in for [exp]; it is exact at both zeros. *)
Definition exp_poly (x : float) : float :=
  1 + x * (1 + x / 2 * (1 + x / 3 * (1 + x / 4))).

(** A stand-in for [**]: one Newton step for the sixth root when the
    exponent is below one, repeated multiplication otherwise. *)
Definition pow_sample (x y : float) : float :=
  if y <? 1 then 1 + (x - 1) / 6
  else if y <? 7 then x * x * x * x * x * x
  else let x6 := x * x * x * x * x * x in x6 * x6.

(** A three-point grid around a core of radius one: [r] at address 0,
    [gamma] at address 1 and the potential at address 2. *)
Definition store_sample : heap :=
  [[0.5; 1; 1.5]; [0.1; 0.1; 0.1]; [5; 5; 0]].

Definition closure_sample (hard_core : bool) : PercusYevick :=
  with_sigma (with_potential (PercusYevick_init hard_core) 2) 1.

Definition world_sample (hard_core : bool) : world :=
  {| store := store_sample; this := closure_sample hard_core |}.

(** The same grid with a potential that diverges inside the core. *)
Definition store_divergent : heap :=
  [[0.5; 1; 1.5]; [0.1; 0.1; 0.1]; [infinity; nan; 0]].

(** A store where the grid [r] (address 0) is shorter than [gamma]
    (address 1) and the potential (address 2). *)
Definition store_short_grid : heap := [[]; [0]; [0]].

(** A store where [gamma] (address 1) is shorter than the potential. *)
Definition store_short_gamma : heap := [[0.5; 1; 1.5]; [0.1]; [5; 5; 0]].

(** A grid that lies beyond the core of radius one at every point. *)
Definition store_far_grid : heap :=
  [[1.5; 2; 2.5]; [0.1; 0.1; 0.1]; [5; 5; 0]].

(** A grid whose first point is not a number. *)
Definition store_nan_grid : heap :=
  [[nan; 1; 1.5]; [0.1; 0.1; 0.1]; [5; 5; 0]].

(** Empty arrays at the three addresses. *)
Definition store_empty : heap := [[]; []; []].

(** The closed form of the hard-core result: the closure formula where the
    mask holds, the core value elsewhere. *)
Fixpoint core_or_py (exp : float → float) (m : mask) (us gs : array) : array :=
  match m, us, gs with
  | b :: m', u :: us', g :: gs' =>
      (if b then py_point exp u g else core_point g) :: core_or_py exp m' us' gs'
  | _, _, _ => []
  end.

(** The array a successful call computes, as a function of the bound state
    and of the contents of the arguments alone. *)
Definition closure_value (exp : float → float) (hard_core : bool) (s : float)
    (rs us gs : array) : array :=
  if hard_core then core_or_py exp (np_gt rs s) us gs
  else zip_with (py_point exp) us gs.

(** * Properties *)

(** ** IEEE comparisons *)

Lemma SFcompare_antisym x y : SFcompare y x = CompOpp <$> SFcompare x y.
Proof.
  destruct x as [sx|sx| |sx mx ex], y as [sy|sy| |sy my ey]; simpl;
    try destruct sx; try destruct sy; try reflexivity.
  all: rewrite (Z.compare_antisym ex ey);
    change (PosDef.Pos.compare_cont Eq my mx) with (Pos.compare my mx);
    change (PosDef.Pos.compare_cont Eq mx my) with (Pos.compare mx my);
    rewrite (Pos.compare_antisym mx my).
  all: destruct (ex ?= ey)%Z; simpl; try reflexivity.
  all: destruct (mx ?= my)%positive; reflexivity.
Qed.

Ltac float_order x y :=
  rewrite ?FloatAxioms.ltb_spec, ?FloatAxioms.leb_spec, ?FloatAxioms.eqb_spec;
  unfold SFltb, SFleb, SFeqb;
  rewrite (SFcompare_antisym (Prim2SF x) (Prim2SF y));
  destruct (SFcompare (Prim2SF x) (Prim2SF y)) as [[]|]; simpl; congruence.

(** [x <= y] excludes [x > y]. *)
Lemma leb_not_gt (x y : float) : (x <=? y) = true → (y <? x) = false.
Proof. float_order x y. Qed.

(** [x == y] excludes [x > y]. *)
Lemma eqb_not_gt (x y : float) : (x =? y) = true → (y <? x) = false.
Proof. float_order x y. Qed.

(** [x < y] excludes [x >= y]. *)
Lemma ltb_not_ge (x y : float) : (x <? y) = true → (y <=? x) = false.
Proof. float_order x y. Qed.

(** ** Boolean indexing *)

Lemma length_select (a : array) (m : mask) :
  length m = length a → length (select a m) = count_true m.
Proof.
  revert a; induction m as [|b m IH]; intros [|x a] Hl; simpl in *;
    try discriminate; try reflexivity.
  destruct b; simpl; rewrite IH by lia; reflexivity.
Qed.

Lemma length_scatter (a : array) (m : mask) (v : array) :
  length (scatter a m v) = length a.
Proof.
  revert m v; induction a as [|x a IH]; intros [|[] m] v; simpl; try reflexivity.
  - destruct v; simpl; rewrite IH; reflexivity.
  - rewrite IH; reflexivity.
Qed.

Lemma np_getitem_fit (a : array) (m : mask) :
  length m = length a → np_getitem a m = Return (select a m).
Proof. intros H. unfold np_getitem. rewrite decide_True by exact H. reflexivity. Qed.

Lemma np_setitem_fit (a : array) (m : mask) (v : array) :
  length m = length a → length v = count_true m →
  np_setitem a m v = Return (scatter a m v).
Proof.
  intros H Hv. unfold np_setitem.
  rewrite decide_True by exact H. rewrite decide_True by exact Hv. reflexivity.
Qed.

Lemma length_np_gt (r : array) (s : float) : length (np_gt r s) = length r.
Proof. apply length_map. Qed.

Lemma np_gt_lookup (r : array) (s : float) (i : nat) (x : float) :
  r !! i = Some x → np_gt r s !! i = Some (s <? x).
Proof.
  revert i; induction r as [|y r IH]; intros [|i] H; simpl in *;
    try discriminate.
  - congruence.
  - apply IH, H.
Qed.

Section ClosureFacts.

Variable exp : float → float.

Lemma py_arrays_zip (u g : array) :
  length u = length g → py_arrays exp u g = Return (zip_with (py_point exp) u g).
Proof.
  intros Hl. unfold py_arrays, np_mul.
  rewrite decide_True by (rewrite !length_map; exact Hl).
  f_equal. revert g Hl; induction u as [|x u IH]; intros [|y g] Hl;
    simpl in *; try discriminate; try reflexivity.
  unfold py_point at 1. f_equal. apply IH. lia.
Qed.

(** Overwriting the core values at the masked positions with the closure
    formula of the selected elements gives the closed form. *)
Lemma scatter_select (m : mask) (us gs : array) :
  length us = length m → length gs = length m →
  scatter (map core_point gs) m
          (zip_with (py_point exp) (select us m) (select gs m))
  = core_or_py exp m us gs.
Proof.
  revert us gs; induction m as [|b m IH]; intros [|u us] [|g gs] Hu Hg;
    simpl in *; try discriminate; try reflexivity.
  destruct b; simpl; rewrite IH by lia; reflexivity.
Qed.

Lemma length_core_or_py (m : mask) (us gs : array) :
  length us = length m → length gs = length m →
  length (core_or_py exp m us gs) = length m.
Proof.
  revert us gs; induction m as [|b m IH]; intros [|u us] [|g gs] Hu Hg;
    simpl in *; try discriminate; try reflexivity.
  rewrite IH by lia; reflexivity.
Qed.

Lemma core_or_py_lookup (m : mask) (us gs : array) (i : nat) (b : bool) (u g : float) :
  m !! i = Some b → us !! i = Some u → gs !! i = Some g →
  core_or_py exp m us gs !! i
  = Some (if b then py_point exp u g else core_point g).
Proof.
  revert us gs i; induction m as [|b' m IH]; intros [|u' us] [|g' gs] [|i];
    simpl; intros Hm Hu Hg; try discriminate.
  - simplify_eq. reflexivity.
  - eapply IH; eassumption.
Qed.

Lemma zip_py_lookup (us gs : array) (i : nat) (u g : float) :
  us !! i = Some u → gs !! i = Some g →
  zip_with (py_point exp) us gs !! i = Some (py_point exp u g).
Proof.
  revert gs i; induction us as [|u' us IH]; intros [|g' gs] [|i];
    simpl; intros Hu Hg; try discriminate.
  - congruence.
  - eapply IH; eassumption.
Qed.

End ClosureFacts.

(** ** Running [calculate] *)

Lemma lookup_alloc (h : heap) (a b : array) (l : loc) :
  h !! l = Some a → (h ++ [b]) !! l = Some a.
Proof. intros H. apply lookup_app_l_Some, H. Qed.

Lemma lookup_fresh (h : heap) (b : array) : (h ++ [b]) !! length h = Some b.
Proof. apply list_lookup_middle. reflexivity. Qed.

Lemma insert_fresh (h : heap) (b c : array) :
  <[length h := c]> (h ++ [b]) = h ++ [c].
Proof.
  rewrite insert_app_r_alt by lia. rewrite Nat.sub_diag. reflexivity.
Qed.

(** Unfold the monad and run a method body as far as the known lookups go. *)
Ltac unfold_run :=
  unfold calculate, set_value_items, gt_sigma, np_len, lift, bind, load,
    alloc, write, set_value, get_self, ret, raise;
  cbn [store this potential value sigma apply_hard_core with_value].

Ltac norm_run :=
  cbn [store this potential value sigma apply_hard_core with_value negb].

Ltac run_with H := rewrite H; norm_run.

Section Runs.

Variable exp : float → float.

Variables (h : heap) (p r gamma : loc) (us rs gs : array).
Hypothesis Hp : h !! p = Some us.
Hypothesis Hgamma : h !! gamma = Some gs.

(** The run of the plain branch on a bound closure and fitting arrays. *)
Lemma calculate_plain_run (v0 : option loc) (s : option float) :
  length gs = length us →
  calculate exp r gamma
    {| store := h; this := mkPercusYevick (Some p) v0 s false |}
  = Some (Return (Some (length h)),
          {| store := h ++ [zip_with (py_point exp) us gs];
             this := mkPercusYevick (Some p) (Some (length h)) s false |}).
Proof using Hp Hgamma.
  intros Hl. unfold_run. run_with Hgamma. run_with Hp.
  rewrite Hl. run_with Nat.eqb_refl. run_with Hp. run_with Hgamma.
  rewrite py_arrays_zip by (symmetry; exact Hl).
  reflexivity.
Qed.

(** The run of the hard-core branch on a bound closure and fitting arrays. *)
Lemma calculate_hard_core_run (v0 : option loc) (s : float) :
  h !! r = Some rs →
  length gs = length us → length rs = length us →
  calculate exp r gamma
    {| store := h; this := mkPercusYevick (Some p) v0 (Some s) true |}
  = Some (Return (Some (length h)),
          {| store := h ++ [core_or_py exp (np_gt rs s) us gs];
             this := mkPercusYevick (Some p) (Some (length h)) (Some s) true |}).
Proof using Hp Hgamma.
  intros Hr Hl Hlr. unfold_run. run_with Hgamma. run_with Hp.
  rewrite Hl. run_with Nat.eqb_refl. run_with Hgamma.
  run_with (lookup_alloc _ _ (map core_point gs) _ Hr).
  run_with (lookup_alloc _ _ (map core_point gs) _ Hp).
  run_with (np_getitem_fit us (np_gt rs s)).
  2: { rewrite length_np_gt. exact Hlr. }
  run_with (lookup_alloc _ _ (map core_point gs) _ Hgamma).
  run_with (np_getitem_fit gs (np_gt rs s)).
  2: { rewrite length_np_gt. congruence. }
  rewrite py_arrays_zip.
  2: { rewrite !length_select by (rewrite length_np_gt; congruence).
       reflexivity. }
  norm_run.
  run_with (lookup_fresh h (map core_point gs)).
  rewrite np_setitem_fit.
  2: { rewrite length_np_gt, length_map. congruence. }
  2: { rewrite length_zip_with, !length_select
         by (rewrite length_np_gt; congruence). lia. }
  norm_run.
  rewrite insert_fresh, scatter_select
    by (rewrite length_np_gt; congruence).
  reflexivity.
Qed.

End Runs.

(** A run that cannot go on: no value is returned. *)
Ltac stuck := let H := fresh in intros H; cbv beta iota in H; discriminate H.

(** A run that stops here: read the outcome and the world off. *)
Ltac stops := let H := fresh in intros H; cbv beta iota in H; simplify_eq.

Section Frame.

Variable exp : float → float.

(** Every run of [calculate] either leaves the world as it was and raises,
    or adds exactly one array to the store and makes it the cached value. *)
Lemma calculate_inv (r gamma : loc) (w w' : world) (o : outcome (option loc)) :
  calculate exp r gamma w = Some (o, w') →
  (w' = w ∧ ∃ e, o = Raise e) ∨
  (∃ c, store w' = store w ++ [c] ∧
        this w' = with_value (this w) (Some (length (store w))) ∧
        (o = Return (Some (length (store w))) ∨ ∃ e, o = Raise e)).
Proof.
  destruct w as [h self]. unfold_run.
  destruct (potential self) as [p|]; norm_run; [|stops; solve [eauto]].
  destruct (h !! gamma) as [gs|] eqn:Hgamma; norm_run; [|stuck].
  destruct (h !! p) as [us|] eqn:Hp; norm_run; [|stuck].
  destruct (negb (length gs =? length us)%nat); [stops; solve [eauto]|].
  destruct (apply_hard_core self); norm_run.
  - run_with Hgamma.
    destruct ((h ++ [map core_point gs]) !! r) as [rs|]; norm_run; [|stuck].
    destruct (sigma self) as [s|]; norm_run; [|stops; right; solve [eauto 10]].
    run_with (lookup_alloc _ _ (map core_point gs) _ Hp).
    destruct (np_getitem us (np_gt rs s)) as [um|e]; norm_run;
      [|stops; right; solve [eauto 10]].
    run_with (lookup_alloc _ _ (map core_point gs) _ Hgamma).
    destruct (np_getitem gs (np_gt rs s)) as [gm|e]; norm_run;
      [|stops; right; solve [eauto 10]].
    destruct (py_arrays exp um gm) as [c|e]; norm_run;
      [|stops; right; solve [eauto 10]].
    run_with (lookup_fresh h (map core_point gs)).
    destruct (np_setitem (map core_point gs) (np_gt rs s) c) as [c'|e];
      norm_run; [|stops; right; solve [eauto 10]].
    rewrite insert_fresh. stops. right; solve [eauto 10].
  - run_with Hp. run_with Hgamma.
    destruct (py_arrays exp us gs) as [c|e]; norm_run; [|stops; solve [eauto]].
    stops. right; solve [eauto 10].
Qed.

End Frame.

(** ** The hard-core branch *)

(** C1: with the hard core applied, [sigma] bound and arrays of one length,
    [calculate] returns a fresh array of that length in which every index
    where [r > sigma] holds carries [(exp(-potential) - 1) * (1 + gamma)]
    and every other index carries [-1 - gamma]; the indices with
    [r <= sigma], and so those with [r == sigma], are among the latter. *)
Theorem PercusYevick_hard_core_partition (exp : float → float) (h : heap)
    (p r gamma : loc) (us rs gs : array) (v0 : option loc) (s : float) :
  h !! p = Some us → h !! r = Some rs → h !! gamma = Some gs →
  length gs = length us → length rs = length us →
  ∃ c : array,
    calculate exp r gamma
      {| store := h; this := mkPercusYevick (Some p) v0 (Some s) true |}
    = Some (Return (Some (length h)),
            {| store := h ++ [c];
               this := mkPercusYevick (Some p) (Some (length h)) (Some s) true |})
    ∧ length c = length rs
    ∧ ∀ (i : nat) (ri ui gi : float),
        rs !! i = Some ri → us !! i = Some ui → gs !! i = Some gi →
        ((s <? ri) = true → c !! i = Some ((exp (- ui) - 1) * (1 + gi)))
        ∧ ((s <? ri) = false → c !! i = Some (-1 - gi))
        ∧ ((ri <=? s) = true → c !! i = Some (-1 - gi))
        ∧ ((ri =? s) = true → c !! i = Some (-1 - gi)).
Proof.
  intros Hp Hr Hgamma Hl Hlr.
  exists (core_or_py exp (np_gt rs s) us gs). split; [|split].
  - apply (calculate_hard_core_run exp h p r gamma us rs gs Hp Hgamma v0 s Hr Hl Hlr).
  - rewrite length_core_or_py; rewrite length_np_gt; congruence.
  - intros i ri ui gi Hri Hui Hgi.
    pose proof (core_or_py_lookup exp _ _ _ i _ ui gi
                  (np_gt_lookup rs s i ri Hri) Hui Hgi) as Hc.
    assert (Hcore : (s <? ri) = false →
              core_or_py exp (np_gt rs s) us gs !! i = Some (-1 - gi)).
    { intros Hlt. rewrite Hc, Hlt. reflexivity. }
    repeat split.
    + intros Hlt. rewrite Hc, Hlt. reflexivity.
    + exact Hcore.
    + intros Hle. apply Hcore, leb_not_gt, Hle.
    + intros Heq. apply Hcore, eqb_not_gt, Heq.
Qed.

Lemma PercusYevick_hard_core_partition_witness :
  ∃ c : array,
    calculate exp_poly 0 1 (world_sample true)
    = Some (Return (Some 3%nat),
            {| store := store_sample ++ [c];
               this := mkPercusYevick (Some 2%nat) (Some 3%nat) (Some 1) true |})
    ∧ length c = 3%nat
    ∧ ∀ (i : nat) (ri ui gi : float),
        [0.5; 1; 1.5] !! i = Some ri → [5; 5; 0] !! i = Some ui →
        [0.1; 0.1; 0.1] !! i = Some gi →
        ((1 <? ri) = true → c !! i = Some ((exp_poly (- ui) - 1) * (1 + gi)))
        ∧ ((1 <? ri) = false → c !! i = Some (-1 - gi))
        ∧ ((ri <=? 1) = true → c !! i = Some (-1 - gi))
        ∧ ((ri =? 1) = true → c !! i = Some (-1 - gi)).
Proof.
  apply (PercusYevick_hard_core_partition exp_poly store_sample 2 0 1
           [5; 5; 0] [0.5; 1; 1.5] [0.1; 0.1; 0.1] None 1); reflexivity.
Defined.

(** ** The plain branch *)

(** C2: without the hard core, on a potential [u] and a [gamma] of the same
    length, [calculate] returns a fresh array holding
    [(exp(-u) - 1) * (1 + gamma)] at every index of the grid. *)
Theorem PercusYevick_plain_formula (exp : float → float) (h : heap)
    (p r gamma : loc) (us gs : array) (v0 : option loc) (s : option float) :
  h !! p = Some us → h !! gamma = Some gs → length gs = length us →
  ∃ c : array,
    calculate exp r gamma
      {| store := h; this := mkPercusYevick (Some p) v0 s false |}
    = Some (Return (Some (length h)),
            {| store := h ++ [c];
               this := mkPercusYevick (Some p) (Some (length h)) s false |})
    ∧ length c = length us
    ∧ ∀ (i : nat) (ui gi : float),
        us !! i = Some ui → gs !! i = Some gi →
        c !! i = Some ((exp (- ui) - 1) * (1 + gi)).
Proof.
  intros Hp Hgamma Hl.
  exists (zip_with (py_point exp) us gs). split; [|split].
  - apply (calculate_plain_run exp h p r gamma us gs Hp Hgamma v0 s Hl).
  - rewrite length_zip_with. lia.
  - intros i ui gi Hui Hgi. apply (zip_py_lookup exp us gs i ui gi Hui Hgi).
Qed.

Lemma PercusYevick_plain_formula_witness :
  ∃ c : array,
    calculate exp_poly 0 1 (world_sample false)
    = Some (Return (Some 3%nat),
            {| store := store_sample ++ [c];
               this := mkPercusYevick (Some 2%nat) (Some 3%nat) (Some 1) false |})
    ∧ length c = 3%nat
    ∧ ∀ (i : nat) (ui gi : float),
        [5; 5; 0] !! i = Some ui → [0.1; 0.1; 0.1] !! i = Some gi →
        c !! i = Some ((exp_poly (- ui) - 1) * (1 + gi)).
Proof.
  apply (PercusYevick_plain_formula exp_poly store_sample 2 0 1
           [5; 5; 0] [0.1; 0.1; 0.1] None (Some 1)); reflexivity.
Defined.

(** ** Precondition faults *)

(** C3, as the code has it: a call on a closure whose potential is unbound
    raises the assertion fault "Potential for this closure is not set!", and
    a call whose [gamma] and bound potential differ in length raises the
    assertion fault "Domain mismatch!"; either fault leaves the store and
    the closure, its cached value included, exactly as they were. The length
    of [r] is not part of the check. *)
Theorem PercusYevick_precondition_faults (exp : float → float) (w : world)
    (r gamma : loc) :
  (potential (this w) = None →
   calculate exp r gamma w
   = Some (Raise (AssertionError "Potential for this closure is not set!"), w))
  ∧ (∀ (p : loc) (us gs : array),
       potential (this w) = Some p →
       store w !! p = Some us → store w !! gamma = Some gs →
       length gs ≠ length us →
       calculate exp r gamma w
       = Some (Raise (AssertionError "Domain mismatch!"), w)).
Proof.
  destruct w as [h self]. split.
  - cbn [this]. intros Hnone. unfold_run. rewrite Hnone. reflexivity.
  - cbn [this store]. intros p us gs Hsome Hp Hgamma Hne.
    unfold_run. rewrite Hsome. norm_run. run_with Hgamma. run_with Hp.
    apply Nat.eqb_neq in Hne. rewrite Hne. reflexivity.
Qed.

Lemma PercusYevick_precondition_faults_witness :
  (calculate exp_poly 0 1
     {| store := store_sample; this := PercusYevick_init true |}
   = Some (Raise (AssertionError "Potential for this closure is not set!"),
           {| store := store_sample; this := PercusYevick_init true |}))
  ∧ (calculate exp_poly 0 1
       {| store := store_short_gamma; this := closure_sample true |}
     = Some (Raise (AssertionError "Domain mismatch!"),
             {| store := store_short_gamma; this := closure_sample true |})).
Proof.
  split.
  - apply (PercusYevick_precondition_faults exp_poly
             {| store := store_sample; this := PercusYevick_init true |} 0 1).
    reflexivity.
  - apply (PercusYevick_precondition_faults exp_poly
             {| store := store_short_gamma; this := closure_sample true |} 0 1)
      with (p := 2%nat) (us := [5; 5; 0]) (gs := [0.1]).
    + reflexivity.
    + reflexivity.
    + reflexivity.
    + simpl. lia.
Defined.

(** C3, as stated, fails: a grid [r] whose length differs from that of
    [gamma] and of the potential raises nothing on the plain branch; the
    call returns a fresh array and rebinds the cached value. *)
Lemma PercusYevick_grid_mismatch_unchecked :
  store_short_grid !! 0%nat = Some [] ∧
  store_short_grid !! 1%nat = Some [0] ∧
  store_short_grid !! 2%nat = Some [0] ∧
  calculate exp_poly 0 1
    {| store := store_short_grid;
       this := with_potential (PercusYevick_init false) 2 |}
  = Some (Return (Some 3%nat),
          {| store := store_short_grid ++ [[0]];
             this := mkPercusYevick (Some 2%nat) (Some 3%nat) None false |}) ∧
  ∀ w' : world,
    calculate exp_poly 0 1
      {| store := store_short_grid;
         this := with_potential (PercusYevick_init false) 2 |}
    ≠ Some (Raise (AssertionError "Domain mismatch!"), w').
Proof.
  assert (Hrun : calculate exp_poly 0 1
            {| store := store_short_grid;
               this := with_potential (PercusYevick_init false) 2 |}
          = Some (Return (Some 3%nat),
                  {| store := store_short_grid ++ [[0]];
                     this := mkPercusYevick (Some 2%nat) (Some 3%nat) None false |}))
    by (vm_compute; reflexivity).
  repeat split; try reflexivity; try exact Hrun.
  intros w'. rewrite Hrun. discriminate.
Qed.

(** On the hard-core branch the same mismatch surfaces as numpy's index
    fault, raised after the cached value has been rebound to [-1 - gamma]. *)
Example PercusYevick_grid_mismatch_hard_core :
  calculate exp_poly 0 1
    {| store := store_short_grid;
       this := with_sigma (with_potential (PercusYevick_init true) 2) 1 |}
  = Some (Raise IndexError,
          {| store := store_short_grid ++ [[-1]];
             this := mkPercusYevick (Some 2%nat) (Some 3%nat) (Some 1) true |}).
Proof. vm_compute. reflexivity. Qed.

(** ** The three-point scenario *)

(** C6: on the grid [0.5, 1.0, 1.5] with [sigma = 1.0], [gamma] constant
    [0.1] and potential [5.0, 5.0, 0.0], the hard-core closure returns
    [-1.1, -1.1, 0.0], for any [exp] that is [1] at [-0.0]. *)
Theorem PercusYevick_three_point_scenario (exp : float → float) :
  exp (-0) = 1 →
  calculate exp 0 1 (world_sample true)
  = Some (Return (Some 3%nat),
          {| store := store_sample ++ [[-1.1; -1.1; 0]];
             this := mkPercusYevick (Some 2%nat) (Some 3%nat) (Some 1) true |}).
Proof.
  intros Hexp.
  etransitivity.
  { exact (calculate_hard_core_run exp store_sample 2 0 1
             [5; 5; 0] [0.5; 1; 1.5] [0.1; 0.1; 0.1]
             eq_refl eq_refl None 1 eq_refl eq_refl eq_refl). }
  do 3 f_equal. cbn -[PrimFloat.opp].
  rewrite Hexp. reflexivity.
Qed.

Lemma PercusYevick_three_point_scenario_witness :
  exp_poly (-0) = 1 ∧
  calculate exp_poly 0 1 (world_sample true)
  = Some (Return (Some 3%nat),
          {| store := store_sample ++ [[-1.1; -1.1; 0]];
             this := mkPercusYevick (Some 2%nat) (Some 3%nat) (Some 1) true |}).
Proof.
  split; [reflexivity|].
  apply (PercusYevick_three_point_scenario exp_poly). reflexivity.
Defined.

(** ** Repeated calls *)

(** C7: on a bound closure and arrays of one length, two calls in
    succession with the same [r] and [gamma] both return, each a fresh array,
    and the two arrays are equal: both hold [closure_value], which depends
    on the bound state and the contents of the arguments only, not on the
    store or the cached value the first call started from. The second call
    changes no array of the store, the first result included, and leaves the
    closure as the first call left it, up to the address of the cached
    value. *)
Theorem PercusYevick_calculate_idempotent (exp : float → float) (h : heap)
    (p r gamma : loc) (us rs gs : array) (v0 : option loc) (s : float)
    (hard_core : bool) :
  h !! p = Some us → h !! r = Some rs → h !! gamma = Some gs →
  length gs = length us → length rs = length us →
  let c := closure_value exp hard_core s rs us gs in
  let self v := mkPercusYevick (Some p) v (Some s) hard_core in
  let w1 := {| store := h ++ [c]; this := self (Some (length h)) |} in
  let w2 := {| store := (h ++ [c]) ++ [c];
               this := self (Some (S (length h))) |} in
  calculate exp r gamma {| store := h; this := self v0 |}
  = Some (Return (Some (length h)), w1)
  ∧ calculate exp r gamma w1 = Some (Return (Some (S (length h))), w2)
  ∧ store w1 !! length h = Some c
  ∧ store w2 !! S (length h) = Some c
  ∧ ∀ (l : loc) (a : array), store w1 !! l = Some a → store w2 !! l = Some a.
Proof.
  intros Hp Hr Hgamma Hl Hlr c self w1 w2.
  assert (Hfresh : (h ++ [c]) !! length h = Some c) by apply lookup_fresh.
  assert (Hnext : ((h ++ [c]) ++ [c]) !! S (length h) = Some c).
  { replace (S (length h)) with (length (h ++ [c]))
      by (rewrite length_app; simpl; lia).
    apply lookup_fresh. }
  assert (Hlen : length (h ++ [c]) = S (length h))
    by (rewrite length_app; simpl; lia).
  repeat split; try assumption.
  - subst c self w1. destruct hard_core; unfold closure_value.
    + apply (calculate_hard_core_run exp h p r gamma us rs gs Hp Hgamma v0 s
               Hr Hl Hlr).
    + apply (calculate_plain_run exp h p r gamma us gs Hp Hgamma v0 (Some s) Hl).
  - subst self w1 w2. rewrite <- Hlen. subst c.
    destruct hard_core; unfold closure_value.
    + apply (calculate_hard_core_run exp _ p r gamma us rs gs
               (lookup_alloc _ _ _ _ Hp) (lookup_alloc _ _ _ _ Hgamma)
               _ s (lookup_alloc _ _ _ _ Hr) Hl Hlr).
    + apply (calculate_plain_run exp _ p r gamma us gs
               (lookup_alloc _ _ _ _ Hp) (lookup_alloc _ _ _ _ Hgamma)
               _ (Some s) Hl).
  - intros l a Hla. apply lookup_alloc, Hla.
Qed.

Lemma PercusYevick_calculate_idempotent_witness :
  let c := closure_value exp_poly true 1 [0.5; 1; 1.5] [5; 5; 0] [0.1; 0.1; 0.1] in
  let self v := mkPercusYevick (Some 2%nat) v (Some 1) true in
  let w1 := {| store := store_sample ++ [c]; this := self (Some 3%nat) |} in
  let w2 := {| store := (store_sample ++ [c]) ++ [c];
               this := self (Some 4%nat) |} in
  calculate exp_poly 0 1 {| store := store_sample; this := self None |}
  = Some (Return (Some 3%nat), w1)
  ∧ calculate exp_poly 0 1 w1 = Some (Return (Some 4%nat), w2)
  ∧ store w1 !! 3%nat = Some c
  ∧ store w2 !! 4%nat = Some c
  ∧ ∀ (l : loc) (a : array), store w1 !! l = Some a → store w2 !! l = Some a.
Proof.
  apply (PercusYevick_calculate_idempotent exp_poly store_sample 2 0 1
           [5; 5; 0] [0.5; 1; 1.5] [0.1; 0.1; 0.1] None 1 true); reflexivity.
Defined.

(** ** The potential inside the core *)

Lemma core_or_py_agree (exp : float → float) (m : mask) (us1 us2 gs : array) :
  length us1 = length m → length us2 = length m →
  (∀ i : nat, m !! i = Some true → us1 !! i = us2 !! i) →
  core_or_py exp m us1 gs = core_or_py exp m us2 gs.
Proof.
  revert us1 us2 gs; induction m as [|b m IH];
    intros [|u1 us1] [|u2 us2] [|g gs] H1 H2 Hagree;
    simpl in *; try discriminate; try reflexivity.
  f_equal.
  - destruct b; [|reflexivity].
    specialize (Hagree 0%nat eq_refl). simpl in Hagree. simplify_eq. reflexivity.
  - apply IH; [lia|lia|]. intros i Hi. apply (Hagree (S i)), Hi.
Qed.

(** C8: two hard-core runs on the same grid and [gamma], whose potentials
    have the grid's length and agree wherever [r > sigma], return arrays with
    the same contents, whatever the two potentials hold at the other
    indices. *)
Theorem PercusYevick_core_potential_irrelevant (exp : float → float)
    (h1 h2 : heap) (p r gamma : loc) (us1 us2 rs gs : array)
    (v1 v2 : option loc) (s : float) :
  h1 !! p = Some us1 → h1 !! r = Some rs → h1 !! gamma = Some gs →
  h2 !! p = Some us2 → h2 !! r = Some rs → h2 !! gamma = Some gs →
  length gs = length rs → length us1 = length rs → length us2 = length rs →
  (∀ (i : nat) (ri : float),
     rs !! i = Some ri → (s <? ri) = true → us1 !! i = us2 !! i) →
  ∃ c : array,
    calculate exp r gamma
      {| store := h1; this := mkPercusYevick (Some p) v1 (Some s) true |}
    = Some (Return (Some (length h1)),
            {| store := h1 ++ [c];
               this := mkPercusYevick (Some p) (Some (length h1)) (Some s) true |})
    ∧ calculate exp r gamma
        {| store := h2; this := mkPercusYevick (Some p) v2 (Some s) true |}
      = Some (Return (Some (length h2)),
              {| store := h2 ++ [c];
                 this := mkPercusYevick (Some p) (Some (length h2)) (Some s) true |}).
Proof.
  intros Hp1 Hr1 Hg1 Hp2 Hr2 Hg2 Hlg Hl1 Hl2 Hagree.
  exists (core_or_py exp (np_gt rs s) us1 gs). split.
  - apply (calculate_hard_core_run exp h1 p r gamma us1 rs gs Hp1 Hg1 v1 s Hr1);
      congruence.
  - rewrite (core_or_py_agree exp (np_gt rs s) us1 us2 gs).
    + apply (calculate_hard_core_run exp h2 p r gamma us2 rs gs Hp2 Hg2 v2 s Hr2);
        congruence.
    + rewrite length_np_gt. exact Hl1.
    + rewrite length_np_gt. exact Hl2.
    + intros i Hi.
      destruct (rs !! i) as [ri|] eqn:Hri.
      * rewrite (np_gt_lookup rs s i ri Hri) in Hi.
        apply (Hagree i ri Hri). congruence.
      * apply lookup_ge_None in Hri.
        rewrite !(proj2 (lookup_ge_None _ _)) by lia. reflexivity.
Qed.

Lemma PercusYevick_core_potential_irrelevant_witness :
  ∃ c : array,
    calculate exp_poly 0 1 (world_sample true)
    = Some (Return (Some 3%nat),
            {| store := store_sample ++ [c];
               this := mkPercusYevick (Some 2%nat) (Some 3%nat) (Some 1) true |})
    ∧ calculate exp_poly 0 1
        {| store := store_divergent; this := closure_sample true |}
      = Some (Return (Some 3%nat),
              {| store := store_divergent ++ [c];
                 this := mkPercusYevick (Some 2%nat) (Some 3%nat) (Some 1) true |}).
Proof.
  apply (PercusYevick_core_potential_irrelevant exp_poly
           store_sample store_divergent 2 0 1
           [5; 5; 0] [infinity; nan; 0] [0.5; 1; 1.5] [0.1; 0.1; 0.1]
           None None 1); try reflexivity.
  intros [|[|[|i]]] ri Hri Hgt; simpl in Hri; simplify_eq;
    try reflexivity; vm_compute in Hgt; discriminate.
Defined.

(** ** The cached value and the arguments *)

(** C9: when a call returns, what it returns is the closure's cached value,
    and that is the address of an array the call has just created: the
    address was free before the call and holds an array after it. *)
Theorem PercusYevick_value_is_result (exp : float → float) (r gamma : loc)
    (w w' : world) (v : option loc) :
  calculate exp r gamma w = Some (Return v, w') →
  value (this w') = v
  ∧ ∃ (l : loc) (c : array),
      v = Some l ∧ store w !! l = None ∧ store w' !! l = Some c.
Proof.
  intros Hrun.
  destruct (calculate_inv exp r gamma w w' _ Hrun)
    as [[_ [e He]]|(c & Hstore & Hthis & [Ho|[e He]])]; try discriminate.
  simplify_eq. split.
  - rewrite Hthis. reflexivity.
  - exists (length (store w)), c. split; [reflexivity|]. split.
    + apply lookup_ge_None. lia.
    + rewrite Hstore. apply lookup_fresh.
Qed.

Lemma PercusYevick_value_is_result_witness :
  value (mkPercusYevick (Some 2%nat) (Some 3%nat) (Some 1) true) = Some 3%nat
  ∧ ∃ (l : loc) (c : array),
      Some 3%nat = Some l ∧ store_sample !! l = None
      ∧ (store_sample ++ [[-1.1; -1.1; 0]]) !! l = Some c.
Proof.
  apply (PercusYevick_value_is_result exp_poly 0 1 (world_sample true)
           {| store := store_sample ++ [[-1.1; -1.1; 0]];
              this := mkPercusYevick (Some 2%nat) (Some 3%nat) (Some 1) true |}
           (Some 3%nat)).
  vm_compute. reflexivity.
Defined.

(** C10: whatever a call does, return or raise, every array that was in the
    store before the call, and so the arrays passed as [r] and [gamma], has
    the same contents after it. *)
Theorem PercusYevick_arguments_unchanged (exp : float → float) (r gamma : loc)
    (w w' : world) (o : outcome (option loc)) :
  calculate exp r gamma w = Some (o, w') →
  ∀ (l : loc) (a : array), store w !! l = Some a → store w' !! l = Some a.
Proof.
  intros Hrun l a Hla.
  destruct (calculate_inv exp r gamma w w' _ Hrun)
    as [[-> _]|(c & Hstore & _)].
  - exact Hla.
  - rewrite Hstore. apply lookup_alloc, Hla.
Qed.

Lemma PercusYevick_arguments_unchanged_witness :
  let w' := {| store := store_sample ++ [[-1.1; -1.1; 0]];
               this := mkPercusYevick (Some 2%nat) (Some 3%nat) (Some 1) true |} in
  calculate exp_poly 0 1 (world_sample true) = Some (Return (Some 3%nat), w')
  ∧ store w' !! 0%nat = Some [0.5; 1; 1.5]
  ∧ store w' !! 1%nat = Some [0.1; 0.1; 0.1].
Proof.
  assert (Hrun : calculate exp_poly 0 1 (world_sample true)
          = Some (Return (Some 3%nat),
                  {| store := store_sample ++ [[-1.1; -1.1; 0]];
                     this := mkPercusYevick (Some 2%nat) (Some 3%nat) (Some 1) true |}))
    by (vm_compute; reflexivity).
  split; [exact Hrun|]. split.
  - apply (PercusYevick_arguments_unchanged exp_poly 0 1 _ _ _ Hrun 0%nat).
    reflexivity.
  - apply (PercusYevick_arguments_unchanged exp_poly 0 1 _ _ _ Hrun 1%nat).
    reflexivity.
Defined.

(** ** The Weeks-Chandler-Andersen specialization *)

(** C4: for every base class, every [epsilon], [sigma] and grid [r],
    evaluating the specialization built from [epsilon] and [sigma] is
    evaluating the base form built with [rcut = sigma * 2**(1/6)] and
    [shift = True]. *)
Theorem WeeksChandlerAndersen_is_LennardJones (pow : float → float → float)
    (base : LennardJonesClass) (epsilon sigma : float) (r : array) :
  WeeksChandlerAndersen_calculate (WeeksChandlerAndersen_init pow epsilon sigma) r
  = LennardJones_calculate
      (LennardJones_init epsilon sigma (Some (sigma * pow 2 (1 / 6))) true) r.
Proof. unfold WeeksChandlerAndersen_calculate, WeeksChandlerAndersen_init. reflexivity. Qed.

Lemma lookup_map_Some {A B} (f : A → B) (l : list A) (i : nat) (x : A) :
  l !! i = Some x → map f l !! i = Some (f x).
Proof.
  revert i; induction l as [|y l IH]; intros [|i] H; simpl in *;
    try discriminate.
  - congruence.
  - apply IH, H.
Qed.

Lemma lookup_zip_with_Some {A B C} (f : A → B → C) (l : list A) (k : list B)
    (i : nat) (x : A) (y : B) :
  l !! i = Some x → k !! i = Some y → zip_with f l k !! i = Some (f x y).
Proof.
  intros Hx Hy. rewrite lookup_zip_with, Hx, Hy. reflexivity.
Qed.

(** C5, on the base form as the spec describes it: the specialization is
    [0.0] at every grid point with [r >= rcut], and
    [4*epsilon*((sigma/r)^12 - (sigma/r)^6) + epsilon] at every grid point
    with [r < rcut], where [rcut = sigma * 2**(1/6)]; the result has the
    grid's length. *)
Theorem WeeksChandlerAndersen_cut_and_shifted (pow : float → float → float)
    (epsilon sigma : float) (r : array) (i : nat) (x : float) :
  r !! i = Some x →
  let u := WeeksChandlerAndersen_calculate (base := LJ_model pow)
             (WeeksChandlerAndersen_init pow epsilon sigma) r in
  length u = length r
  ∧ ((WCA_rcut pow sigma <=? x) = true → u !! i = Some 0)
  ∧ ((x <? WCA_rcut pow sigma) = true →
     u !! i = Some (4 * epsilon * (pow (sigma / x) 12 - pow (sigma / x) 6)
                    + epsilon)).
Proof.
  intros Hx u. subst u.
  unfold WeeksChandlerAndersen_calculate, WeeksChandlerAndersen_init.
  cbn [LennardJones_calculate LennardJones_init LJ_model].
  unfold LJ_calculate.
  cbn [LJ_rcut LJ_shift LJ_epsilon LJ_sigma].
  fold (WCA_rcut pow sigma).
  pose proof (lookup_zip_with_Some
                (λ y v, if y <? WCA_rcut pow sigma then v + epsilon else v)
                r (map (LJ_raw pow epsilon sigma) r) i x _ Hx
                (lookup_map_Some (LJ_raw pow epsilon sigma) r i x Hx)) as Hshift.
  pose proof (lookup_zip_with_Some
                (λ y v, if WCA_rcut pow sigma <=? y then 0 else v)
                r _ i x _ Hx Hshift) as Hcut.
  split; [|split].
  - unfold LJ_cut, LJ_shifted. rewrite !length_zip_with, length_map. lia.
  - intros Hge. unfold LJ_cut, LJ_shifted. rewrite Hcut, Hge. reflexivity.
  - intros Hlt. unfold LJ_cut, LJ_shifted. rewrite Hcut.
    rewrite (ltb_not_ge _ _ Hlt), Hlt. reflexivity.
Qed.

Lemma WeeksChandlerAndersen_cut_and_shifted_witness :
  let u := WeeksChandlerAndersen_calculate (base := LJ_model pow_sample)
             (WeeksChandlerAndersen_init pow_sample 1 1) [0.5; 1; 2] in
  length u = 3%nat
  ∧ ((WCA_rcut pow_sample 1 <=? 2) = true → u !! 2%nat = Some 0)
  ∧ ((2 <? WCA_rcut pow_sample 1) = true →
     u !! 2%nat = Some (4 * 1 * (pow_sample (1 / 2) 12 - pow_sample (1 / 2) 6)
                        + 1)).
Proof.
  apply (WeeksChandlerAndersen_cut_and_shifted pow_sample 1 1 [0.5; 1; 2] 2 2).
  reflexivity.
Defined.

(** * Further properties of [calculate] *)

(** ** Comparisons with a NaN *)

Lemma SFcompare_refl (f : spec_float) :
  f ≠ S754_nan → SFcompare f f = Some Eq.
Proof.
  destruct f as [s|s| |s m e]; simpl; intros Hf; try congruence.
  - destruct s; reflexivity.
  - rewrite Z.compare_refl.
    change (PosDef.Pos.compare_cont Eq m m) with (Pos.compare m m).
    rewrite Pos.compare_refl. destruct s; reflexivity.
Qed.

Lemma is_nan_Prim2SF (x : float) : is_nan x = true → Prim2SF x = S754_nan.
Proof.
  unfold is_nan. rewrite FloatAxioms.eqb_spec. unfold SFeqb.
  intros Hx. destruct (Prim2SF x) as [b|b| |b m e] eqn:E; try reflexivity;
    rewrite SFcompare_refl in Hx by discriminate; discriminate.
Qed.

(** [s < x] is false when [s] is a NaN. *)
Lemma ltb_nan_l (s x : float) : is_nan s = true → (s <? x) = false.
Proof.
  intros Hs. rewrite FloatAxioms.ltb_spec, (is_nan_Prim2SF s Hs). reflexivity.
Qed.

(** [s < x] is false when [x] is a NaN. *)
Lemma ltb_nan_r (s x : float) : is_nan x = true → (s <? x) = false.
Proof.
  intros Hx. rewrite FloatAxioms.ltb_spec, (is_nan_Prim2SF x Hx).
  unfold SFltb. destruct (Prim2SF s); reflexivity.
Qed.

(** ** Masks that select everything or nothing *)

Lemma np_gt_const (rs : array) (s : float) (b : bool) :
  (∀ (i : nat) (ri : float), rs !! i = Some ri → (s <? ri) = b) →
  np_gt rs s = replicate (length rs) b.
Proof.
  unfold np_gt. induction rs as [|x rs IH]; intros H; simpl; [reflexivity|].
  f_equal.
  - apply (H 0%nat x). reflexivity.
  - apply IH. intros i ri Hi. apply (H (S i) ri). exact Hi.
Qed.

Lemma core_or_py_all (exp : float → float) (us gs : array) :
  length gs = length us →
  core_or_py exp (replicate (length us) true) us gs
  = zip_with (py_point exp) us gs.
Proof.
  revert gs; induction us as [|u us IH]; intros [|g gs] Hl; simpl in *;
    try discriminate; try reflexivity.
  f_equal. apply IH. lia.
Qed.

Lemma core_or_py_none (exp : float → float) (us gs : array) :
  length gs = length us →
  core_or_py exp (replicate (length us) false) us gs = map core_point gs.
Proof.
  revert gs; induction us as [|u us IH]; intros [|g gs] Hl; simpl in *;
    try discriminate; try reflexivity.
  f_equal. apply IH. lia.
Qed.

(** ** The two branches compared *)

(** X1: when every grid point lies beyond the core ([r > sigma] throughout),
    the hard-core closure and the plain closure return arrays with the same
    contents. *)
Theorem PercusYevick_branches_agree_beyond_core (exp : float → float)
    (h : heap) (p r gamma : loc) (us rs gs : array) (v1 v2 : option loc)
    (s : float) :
  h !! p = Some us → h !! r = Some rs → h !! gamma = Some gs →
  length gs = length us → length rs = length us →
  (∀ (i : nat) (ri : float), rs !! i = Some ri → (s <? ri) = true) →
  ∃ c : array,
    calculate exp r gamma
      {| store := h; this := mkPercusYevick (Some p) v1 (Some s) true |}
    = Some (Return (Some (length h)),
            {| store := h ++ [c];
               this := mkPercusYevick (Some p) (Some (length h)) (Some s) true |})
    ∧ calculate exp r gamma
        {| store := h; this := mkPercusYevick (Some p) v2 (Some s) false |}
      = Some (Return (Some (length h)),
              {| store := h ++ [c];
                 this := mkPercusYevick (Some p) (Some (length h)) (Some s) false |}).
Proof.
  intros Hp Hr Hgamma Hl Hlr Hfar.
  exists (zip_with (py_point exp) us gs). split.
  - rewrite <- (core_or_py_all exp us gs Hl), <- Hlr.
    rewrite <- (np_gt_const rs s true Hfar).
    apply (calculate_hard_core_run exp h p r gamma us rs gs Hp Hgamma v1 s
             Hr Hl Hlr).
  - apply (calculate_plain_run exp h p r gamma us gs Hp Hgamma v2 (Some s) Hl).
Qed.

Lemma PercusYevick_branches_agree_beyond_core_witness :
  ∃ c : array,
    calculate exp_poly 0 1
      {| store := store_far_grid; this := closure_sample true |}
    = Some (Return (Some 3%nat),
            {| store := store_far_grid ++ [c];
               this := mkPercusYevick (Some 2%nat) (Some 3%nat) (Some 1) true |})
    ∧ calculate exp_poly 0 1
        {| store := store_far_grid; this := closure_sample false |}
      = Some (Return (Some 3%nat),
              {| store := store_far_grid ++ [c];
                 this := mkPercusYevick (Some 2%nat) (Some 3%nat) (Some 1) false |}).
Proof.
  apply (PercusYevick_branches_agree_beyond_core exp_poly store_far_grid 2 0 1
           [5; 5; 0] [1.5; 2; 2.5] [0.1; 0.1; 0.1] None None 1);
    try reflexivity.
  intros [|[|[|i]]] ri Hri; simpl in Hri; simplify_eq; reflexivity.
Defined.

(** ** Not-a-number in the comparison *)

(** X2: when [sigma] is a NaN the test [r > sigma] fails at every point, and
    the hard-core closure returns [-1 - gamma] over the whole grid, whatever
    the potential holds. *)
Theorem PercusYevick_nan_sigma_all_core (exp : float → float) (h : heap)
    (p r gamma : loc) (us rs gs : array) (v0 : option loc) (s : float) :
  h !! p = Some us → h !! r = Some rs → h !! gamma = Some gs →
  length gs = length us → length rs = length us →
  is_nan s = true →
  calculate exp r gamma
    {| store := h; this := mkPercusYevick (Some p) v0 (Some s) true |}
  = Some (Return (Some (length h)),
          {| store := h ++ [map (λ g, -1 - g) gs];
             this := mkPercusYevick (Some p) (Some (length h)) (Some s) true |}).
Proof.
  intros Hp Hr Hgamma Hl Hlr Hnan.
  change (map (λ g, -1 - g) gs) with (map core_point gs).
  rewrite <- (core_or_py_none exp us gs Hl), <- Hlr.
  rewrite <- (np_gt_const rs s false (λ i ri _, ltb_nan_l s ri Hnan)).
  apply (calculate_hard_core_run exp h p r gamma us rs gs Hp Hgamma v0 s
           Hr Hl Hlr).
Qed.

Lemma PercusYevick_nan_sigma_all_core_witness :
  is_nan nan = true ∧
  calculate exp_poly 0 1
    {| store := store_sample;
       this := with_sigma (with_potential (PercusYevick_init true) 2) nan |}
  = Some (Return (Some 3%nat),
          {| store := store_sample ++ [[-1.1; -1.1; -1.1]];
             this := mkPercusYevick (Some 2%nat) (Some 3%nat) (Some nan) true |}).
Proof.
  split; [reflexivity|].
  apply (PercusYevick_nan_sigma_all_core exp_poly store_sample 2 0 1
           [5; 5; 0] [0.5; 1; 1.5] [0.1; 0.1; 0.1] None nan); reflexivity.
Defined.

(** X3: a grid point that is a NaN counts as inside the core: the hard-core
    closure puts [-1 - gamma] at its index. *)
Theorem PercusYevick_nan_grid_point_in_core (exp : float → float) (h : heap)
    (p r gamma : loc) (us rs gs : array) (v0 : option loc) (s : float)
    (i : nat) (ri gi : float) :
  h !! p = Some us → h !! r = Some rs → h !! gamma = Some gs →
  length gs = length us → length rs = length us →
  rs !! i = Some ri → gs !! i = Some gi → is_nan ri = true →
  ∃ c : array,
    calculate exp r gamma
      {| store := h; this := mkPercusYevick (Some p) v0 (Some s) true |}
    = Some (Return (Some (length h)),
            {| store := h ++ [c];
               this := mkPercusYevick (Some p) (Some (length h)) (Some s) true |})
    ∧ c !! i = Some (-1 - gi).
Proof.
  intros Hp Hr Hgamma Hl Hlr Hri Hgi Hnan.
  exists (core_or_py exp (np_gt rs s) us gs). split.
  - apply (calculate_hard_core_run exp h p r gamma us rs gs Hp Hgamma v0 s
             Hr Hl Hlr).
  - destruct (lookup_lt_is_Some_2 us i) as [ui Hui].
    { apply lookup_lt_Some in Hri. lia. }
    rewrite (core_or_py_lookup exp _ _ _ i _ ui gi
               (np_gt_lookup rs s i ri Hri) Hui Hgi).
    rewrite (ltb_nan_r s ri Hnan). reflexivity.
Qed.

Lemma PercusYevick_nan_grid_point_in_core_witness :
  is_nan nan = true ∧
  ∃ c : array,
    calculate exp_poly 0 1
      {| store := store_nan_grid; this := closure_sample true |}
    = Some (Return (Some 3%nat),
            {| store := store_nan_grid ++ [c];
               this := mkPercusYevick (Some 2%nat) (Some 3%nat) (Some 1) true |})
    ∧ c !! 0%nat = Some (-1 - 0.1).
Proof.
  split; [reflexivity|].
  apply (PercusYevick_nan_grid_point_in_core exp_poly store_nan_grid 2 0 1
           [5; 5; 0] [nan; 1; 1.5] [0.1; 0.1; 0.1] None 1 0 nan 0.1);
    reflexivity.
Defined.

(** ** Faults *)







(** ** What a call leaves alone *)

(** X5: whatever a call does, return or raise, the closure's [potential],
    [sigma] and [apply_hard_core] are as before, and the store has grown by
    at most one array. *)
Theorem PercusYevick_only_value_rebound (exp : float → float) (r gamma : loc)
    (w w' : world) (o : outcome (option loc)) :
  calculate exp r gamma w = Some (o, w') →
  potential (this w') = potential (this w)
  ∧ sigma (this w') = sigma (this w)
  ∧ apply_hard_core (this w') = apply_hard_core (this w)
  ∧ (length (store w') ≤ S (length (store w)))%nat.
Proof.
  intros Hrun.
  destruct (calculate_inv exp r gamma w w' _ Hrun)
    as [[-> _]|(c & Hstore & Hthis & _)].
  - repeat split; lia.
  - rewrite Hthis, Hstore, length_app. simpl. repeat split; lia.
Qed.

Lemma PercusYevick_only_value_rebound_witness :
  let w := world_sample true in
  let w' := {| store := store_sample ++ [[-1.1; -1.1; 0]];
               this := mkPercusYevick (Some 2%nat) (Some 3%nat) (Some 1) true |} in
  calculate exp_poly 0 1 w = Some (Return (Some 3%nat), w')
  ∧ potential (this w') = potential (this w)
  ∧ sigma (this w') = sigma (this w)
  ∧ apply_hard_core (this w') = apply_hard_core (this w)
  ∧ (length (store w') ≤ S (length (store w)))%nat.
Proof.
  assert (Hrun : calculate exp_poly 0 1 (world_sample true)
          = Some (Return (Some 3%nat),
                  {| store := store_sample ++ [[-1.1; -1.1; 0]];
                     this := mkPercusYevick (Some 2%nat) (Some 3%nat) (Some 1) true |}))
    by (vm_compute; reflexivity).
  split; [exact Hrun|].
  apply (PercusYevick_only_value_rebound exp_poly 0 1 _ _ _ Hrun).
Defined.

(** ** Calls in sequence *)

(** X7: after a call with one pair of arguments, a call with another pair
    (which may name the array the first call returned) returns the array
    that the bound state and its own arguments determine; the first result
    stays in the store unchanged. *)
Theorem PercusYevick_calls_independent (exp : float → float) (h : heap)
    (p r1 gamma1 r2 gamma2 : loc) (us rs1 gs1 rs2 gs2 : array)
    (v0 : option loc) (s : float) (hard_core : bool) :
  let c1 := closure_value exp hard_core s rs1 us gs1 in
  let c2 := closure_value exp hard_core s rs2 us gs2 in
  let self v := mkPercusYevick (Some p) v (Some s) hard_core in
  let w1 := {| store := h ++ [c1]; this := self (Some (length h)) |} in
  let w2 := {| store := (h ++ [c1]) ++ [c2];
               this := self (Some (S (length h))) |} in
  h !! p = Some us → h !! r1 = Some rs1 → h !! gamma1 = Some gs1 →
  length gs1 = length us → length rs1 = length us →
  store w1 !! r2 = Some rs2 → store w1 !! gamma2 = Some gs2 →
  length gs2 = length us → length rs2 = length us →
  calculate exp r1 gamma1 {| store := h; this := self v0 |}
  = Some (Return (Some (length h)), w1)
  ∧ calculate exp r2 gamma2 w1 = Some (Return (Some (S (length h))), w2)
  ∧ store w2 !! length h = Some c1
  ∧ store w2 !! S (length h) = Some c2.
Proof.
  intros c1 c2 self w1 w2 Hp Hr1 Hg1 Hl1 Hlr1 Hr2 Hg2 Hl2 Hlr2.
  assert (Hlen : length (h ++ [c1]) = S (length h))
    by (rewrite length_app; simpl; lia).
  repeat split.
  - subst c1 self w1. destruct hard_core; unfold closure_value.
    + apply (calculate_hard_core_run exp h p r1 gamma1 us rs1 gs1 Hp Hg1 v0 s
               Hr1 Hl1 Hlr1).
    + apply (calculate_plain_run exp h p r1 gamma1 us gs1 Hp Hg1 v0 (Some s) Hl1).
  - subst self w1 w2. cbn [store] in Hr2, Hg2. rewrite <- Hlen. subst c2.
    destruct hard_core; unfold closure_value.
    + apply (calculate_hard_core_run exp _ p r2 gamma2 us rs2 gs2
               (lookup_alloc _ _ _ _ Hp) Hg2 _ s Hr2 Hl2 Hlr2).
    + apply (calculate_plain_run exp _ p r2 gamma2 us gs2
               (lookup_alloc _ _ _ _ Hp) Hg2 _ (Some s) Hl2).
  - subst w2. cbn [store]. apply lookup_alloc, lookup_fresh.
  - subst w2. cbn [store]. rewrite <- Hlen. apply lookup_fresh.
Qed.

Lemma PercusYevick_calls_independent_witness :
  let c1 := closure_value exp_poly true 1 [0.5; 1; 1.5] [5; 5; 0] [0.1; 0.1; 0.1] in
  let c2 := closure_value exp_poly true 1 [0.5; 1; 1.5] [5; 5; 0] c1 in
  let self v := mkPercusYevick (Some 2%nat) v (Some 1) true in
  let w1 := {| store := store_sample ++ [c1]; this := self (Some 3%nat) |} in
  let w2 := {| store := (store_sample ++ [c1]) ++ [c2];
               this := self (Some 4%nat) |} in
  calculate exp_poly 0 1 {| store := store_sample; this := self None |}
  = Some (Return (Some 3%nat), w1)
  ∧ calculate exp_poly 0 3 w1 = Some (Return (Some 4%nat), w2)
  ∧ store w2 !! 3%nat = Some c1
  ∧ store w2 !! 4%nat = Some c2.
Proof.
  apply (PercusYevick_calls_independent exp_poly store_sample 2 0 1 0 3
           [5; 5; 0] [0.5; 1; 1.5] [0.1; 0.1; 0.1] [0.5; 1; 1.5]
           (closure_value exp_poly true 1 [0.5; 1; 1.5] [5; 5; 0] [0.1; 0.1; 0.1])
           None 1 true); reflexivity.
Defined.

(** ** From construction to the first call *)

(** X8: a closure built by the constructor without the hard core has no
    potential, no value and no [sigma]; a call on it raises the assertion
    fault for the unset potential, and once a potential is bound, with
    [sigma] still unset, a call with a [gamma] of the potential's length
    returns [(exp(-u) - 1) * (1 + gamma)] and caches it. *)
Theorem PercusYevick_default_needs_only_potential (exp : float → float)
    (h : heap) (p r gamma : loc) (us gs : array) :
  h !! p = Some us → h !! gamma = Some gs → length gs = length us →
  calculate exp r gamma {| store := h; this := PercusYevick_init false |}
  = Some (Raise (AssertionError "Potential for this closure is not set!"),
          {| store := h; this := PercusYevick_init false |})
  ∧ calculate exp r gamma
      {| store := h; this := with_potential (PercusYevick_init false) p |}
    = Some (Return (Some (length h)),
            {| store := h ++ [zip_with (λ u g, (exp (- u) - 1) * (1 + g)) us gs];
               this := with_value (with_potential (PercusYevick_init false) p)
                         (Some (length h)) |}).
Proof.
  intros Hp Hgamma Hl. split.
  - reflexivity.
  - apply (calculate_plain_run exp h p r gamma us gs Hp Hgamma None None Hl).
Qed.

Lemma PercusYevick_default_needs_only_potential_witness :
  calculate exp_poly 0 1
    {| store := store_sample; this := PercusYevick_init false |}
  = Some (Raise (AssertionError "Potential for this closure is not set!"),
          {| store := store_sample; this := PercusYevick_init false |})
  ∧ calculate exp_poly 0 1
      {| store := store_sample;
         this := with_potential (PercusYevick_init false) 2 |}
    = Some (Return (Some 3%nat),
            {| store := store_sample
                 ++ [zip_with (λ u g, (exp_poly (- u) - 1) * (1 + g))
                       [5; 5; 0] [0.1; 0.1; 0.1]];
               this := with_value (with_potential (PercusYevick_init false) 2)
                         (Some 3%nat) |}).
Proof.
  apply (PercusYevick_default_needs_only_potential exp_poly store_sample 2 0 1
           [5; 5; 0] [0.1; 0.1; 0.1]); reflexivity.
Defined.

(** ** The empty grid *)

(** X9: on empty arrays a bound closure, with or without the hard core,
    returns a fresh empty array. *)
Theorem PercusYevick_empty_grid (exp : float → float) (h : heap)
    (p r gamma : loc) (v0 : option loc) (s : float) (hard_core : bool) :
  h !! p = Some [] → h !! r = Some [] → h !! gamma = Some [] →
  calculate exp r gamma
    {| store := h; this := mkPercusYevick (Some p) v0 (Some s) hard_core |}
  = Some (Return (Some (length h)),
          {| store := h ++ [[]];
             this := mkPercusYevick (Some p) (Some (length h)) (Some s) hard_core |}).
Proof.
  intros Hp Hr Hgamma. destruct hard_core.
  - apply (calculate_hard_core_run exp h p r gamma [] [] [] Hp Hgamma v0 s Hr
             eq_refl eq_refl).
  - apply (calculate_plain_run exp h p r gamma [] [] Hp Hgamma v0 (Some s)
             eq_refl).
Qed.

Lemma PercusYevick_empty_grid_witness :
  calculate exp_poly 0 1
    {| store := store_empty; this := closure_sample true |}
  = Some (Return (Some 3%nat),
          {| store := store_empty ++ [[]];
             this := mkPercusYevick (Some 2%nat) (Some 3%nat) (Some 1) true |}).
Proof.
  apply (PercusYevick_empty_grid exp_poly store_empty 2 0 1 None 1 true);
    reflexivity.
Defined.
